(** * mysqlx/common.h: value types of the X DevAPI binding

    A shallow embedding of the classes declared in
    [include/mysqlx/common.h]: the byte-region descriptor [bytes], the
    identifier buffer [GUID], the wide string wrapper [string] with its
    utf-8 conversions, and the [CATCH_AND_WRAP] handler sequence.

    Conventions.  A [char], a [byte] and a [wchar_t] are integers ([Z]);
    the terminator of a C string is [0].  A [std::string] is the list of
    its chars, a [std::wstring] the list of its code units.  Pointers are
    addresses on a 64-bit machine, [NULL] is address [0], and [size_t]
    arithmetic wraps modulo [2^64]. *)

From Stdlib Require Import ZArith List Lia Bool String.
From stdpp Require Import base option list.

(** ** Identifier buffer: class [GUID] *)

Module GUID.

(** [sizeof(m_data)] for [char m_data[32]]. *)
Definition sizeof_m_data : nat := 32.

(** [data[i]] for a [const char *data] that points to the chars [data]
    followed by the terminator: reading at the index [length data] gives
    the terminator, and the loop below never reads further. *)
Definition char_at (data : list Z) (i : nat) : Z := default 0%Z (data !! i).

(** The object: its only member is the array [m_data]. *)
Record GUID := mkGUID { m_data : list Z }.

(** The loop of [GUID::set] on a [const char *data]:
    [for (unsigned i=0; data[i] && i < sizeof(m_data); ++i)
       m_data[i]= data[i];]
    [None] is "out of fuel"; [set_loop_fuel] shows that [set_fuel]
    iterations always suffice. *)
Fixpoint set_loop (fuel : nat) (data : list Z) (i : nat) (m : list Z)
  : option (list Z) :=
  match fuel with
  | O => None
  | S fuel' =>
      if negb (char_at data i =? 0)%Z && (i <? sizeof_m_data)
      then set_loop fuel' data (S i) (<[i := char_at data i]> m)
      else Some m
  end.

Definition set_fuel : nat := S sizeof_m_data.

(** The same loop, observed: the indices at which [data] is read by the
    test [data[i]] and the slots of [m_data] that are stored to, in the
    order of the run.  The test reads [data[i]] before it compares [i]
    with the size of the array. *)
Fixpoint set_loop_trace (fuel : nat) (data : list Z) (i : nat)
  : option (list nat * list nat) :=
  match fuel with
  | O => None
  | S fuel' =>
      if negb (char_at data i =? 0)%Z && (i <? sizeof_m_data)
      then
        '(reads, writes) ← set_loop_trace fuel' data (S i);
        Some (i :: reads, i :: writes)
      else Some ([i], [])
  end.

(** The array after the stores [m_data[j] = data[j]] at the slots
    [writes]. *)
Definition stores (data : list Z) (writes : list nat) (m : list Z) : list Z :=
  foldl (fun m j => <[j := char_at data j]> m) m writes.

(** [void set(const char *data)] and [void set(const std::string &data)],
    the latter through [data.c_str()]. *)
Definition set (data : list Z) (g : GUID) : option GUID :=
  mkGUID <$> set_loop set_fuel data 0 (m_data g).

(** [GUID() { memset(m_data, 0, sizeof(m_data)); }] *)
Definition GUID_default : GUID := mkGUID (replicate sizeof_m_data 0%Z).

(** [template <typename T> GUID(T data) { set(data); }]
    The constructor does not initialise [m_data] before [set] runs:
    [storage] is the content the 32 chars of the object happen to hold. *)
Definition GUID_of_text (storage : list Z) (data : list Z) : option GUID :=
  set data (mkGUID storage).

(** [template<typename T> GUID& operator=(T data) { set(data); return *this; }] *)
Definition GUID_assign (g : GUID) (data : list Z) : option GUID :=
  set data g.

(** [operator std::string() const
      { return std::string(m_data, m_data + sizeof(m_data)); }] *)
Definition GUID_to_string (g : GUID) : list Z := take sizeof_m_data (m_data g).

(** The values a program can hold: built by one of the two constructors
    over storage of the array's size, or assigned to afterwards.  (The
    header only declares [void generate();], which is left out.) *)
Inductive GUID_value : GUID -> Prop :=
| gv_default : GUID_value GUID_default
| gv_of_text storage data g :
    length storage = sizeof_m_data ->
    GUID_of_text storage data = Some g ->
    GUID_value g
| gv_assign g data g' :
    GUID_value g ->
    GUID_assign g data = Some g' ->
    GUID_value g'.

(** A text in the sense of a C string literal: no char is the terminator. *)
Definition c_text (t : list Z) : Prop := Forall (fun c => c <> 0%Z) t.

End GUID.

(** ** Memory regions: class [bytes] *)

Module Bytes.

Local Open Scope Z_scope.

(** Width of a pointer and of [size_t]. *)
Definition size_bits : Z := 64.

(** Conversion to [size_t]: reduction modulo [2^64]. *)
Definition to_size_t (x : Z) : Z := x mod 2 ^ size_bits.

(** Conversion to [ptrdiff_t]: the two's complement reading. *)
Definition to_ptrdiff_t (x : Z) : Z :=
  (x + 2 ^ (size_bits - 1)) mod 2 ^ size_bits - 2 ^ (size_bits - 1).

Definition NULL : Z := 0.

(** A [byte *] or [size_t] value: an integer that fits the width. *)
Definition in_range (x : Z) : Prop := 0 <= x < 2 ^ size_bits.

(** [p + n] for a [byte *p], and [p - q] for two of them. *)
Definition ptr_add (p n : Z) : Z := to_size_t (p + n).
Definition ptr_diff (p q : Z) : Z := to_ptrdiff_t (p - q).

(** [class bytes : public std::pair<byte*, size_t>] *)
Record bytes := pair { first : Z; second : Z }.

(** The content of the memory a [const char *] is read from. *)
Definition memory := Z -> Z.

(** [strlen(str)]: the offset of the first terminator at or after [str].
    [None] is "out of fuel". *)
Fixpoint strlen_from (fuel : nat) (mem : memory) (str : Z) (n : Z) : option Z :=
  match fuel with
  | O => None
  | S fuel' =>
      if mem (str + n) =? 0 then Some n
      else strlen_from fuel' mem str (n + 1)
  end.

Definition strlen (fuel : nat) (mem : memory) (str : Z) : option Z :=
  strlen_from fuel mem str 0.

(** [bytes(byte *beg_, byte *end_) : pair(beg_, end_ - beg_) {}] *)
Definition bytes_of_range (beg_ end_ : Z) : bytes :=
  pair beg_ (to_size_t (ptr_diff end_ beg_)).

(** [bytes(byte *beg, size_t len) : pair(beg, len) {}] *)
Definition bytes_of_len (beg len : Z) : bytes := pair beg len.

(** [bytes(const char *str)], which initialises the base with the pair
    of [str] (cast to a byte pointer) and [0], and has the body
    [{ if (NULL != str) second = strlen(str); }] *)
Definition bytes_of_str (fuel : nat) (mem : memory) (str : Z) : option bytes :=
  let this := pair str 0 in
  if negb (NULL =? str)
  then n ← strlen fuel mem str; Some (pair (first this) n)
  else Some this.

(** [bytes(std::pair<byte*, size_t> buf) : pair(buf) {}] *)
Definition bytes_of_pair (buf : Z * Z) : bytes := pair (fst buf) (snd buf).

(** [bytes() : pair(NULL, 0) {}] *)
Definition bytes_default : bytes := pair NULL 0.

(** [byte* begin() const { return first; }] *)
Definition begin (b : bytes) : Z := first b.

(** [byte* end() const { return first + second; }] *)
Definition end_ (b : bytes) : Z := ptr_add (first b) (second b).

(** [size_t length() const { return second; }] *)
Definition length (b : bytes) : Z := second b.

(** [size_t size() const { return length(); }] *)
Definition size (b : bytes) : Z := length b.

(** A view whose two members are values of their C++ types. *)
Definition well_typed (b : bytes) : Prop :=
  in_range (first b) /\ in_range (second b).

(** The memory at [str] holds the chars [t] and then the terminator. *)
Definition holds_text (mem : memory) (str : Z) (t : list Z) : Prop :=
  (forall (i : nat) c, t !! i = Some c -> mem (str + Z.of_nat i) = c /\ c <> 0)
  /\ mem (str + Z.of_nat (List.length t)) = 0.

(** A concrete memory: the chars [t] laid out from address [base] on,
    zero everywhere else. *)
Definition memory_of (base : Z) (t : list Z) : memory :=
  fun a => if (base <=? a) then default 0 (t !! Z.to_nat (a - base)) else 0.

End Bytes.

(** ** The utf-8 codec behind [mysqlx::string]

    [common.h] declares [string(const char *other)], [string(const std::string&)]
    and [operator std::string() const] and defines none of them. *)

Module Utf8.

Local Open Scope Z_scope.

(** Modelled from the spec: the code points a conversion accepts.  The
    spec asks for the full Unicode range, beyond the basic multilingual
    plane, and for a reported failure on an invalid code sequence; the
    surrogate range [D800..DFFF] and everything from [110000] on are
    not code points of a text. *)
Definition is_scalar (c : Z) : bool :=
  ((0 <=? c) && (c <? 0xD800)) || ((0xE000 <=? c) && (c <? 0x110000)).

(** Modelled from the spec: a continuation byte [10xxxxxx] carrying the
    low six bits of [x]. *)
Definition continuation (x : Z) : Z := Z.lor 0x80 (Z.land x 0x3F).

(** Modelled from the spec: the utf-8 form of one code point, one to four
    bytes; [None] reports a code point that is not valid. *)
Definition encode_code_point (c : Z) : option (list Z) :=
  if negb (is_scalar c) then None
  else if c <? 0x80 then Some [c]
  else if c <? 0x800 then
    Some [Z.lor 0xC0 (Z.shiftr c 6); continuation c]
  else if c <? 0x10000 then
    Some [Z.lor 0xE0 (Z.shiftr c 12); continuation (Z.shiftr c 6);
          continuation c]
  else
    Some [Z.lor 0xF0 (Z.shiftr c 18); continuation (Z.shiftr c 12);
          continuation (Z.shiftr c 6); continuation c].

(** Modelled from the spec: [encodeUtf8], the conversion of a code-point
    sequence to its utf-8 byte sequence. *)
Fixpoint encodeUtf8 (s : list Z) : option (list Z) :=
  match s with
  | [] => Some []
  | c :: s' =>
      b ← encode_code_point c; r ← encodeUtf8 s'; Some (b ++ r)
  end.

Definition is_continuation (b : Z) : bool := (0x80 <=? b) && (b <? 0xC0).

Definition payload (b : Z) : Z := Z.land b 0x3F.

(** Modelled from the spec: [decodeUtf8], the conversion of a utf-8 byte
    sequence to code points under the strict policy: a truncated
    sequence, a stray continuation byte, an overlong form, a surrogate
    and a value past [10FFFF] are reported ([None]), never replaced. *)
Fixpoint decodeUtf8 (bs : list Z) : option (list Z) :=
  match bs with
  | [] => Some []
  | b0 :: r0 =>
      if (0 <=? b0) && (b0 <? 0x80) then cons b0 <$> decodeUtf8 r0
      else if (0xC0 <=? b0) && (b0 <? 0xE0) then
        match r0 with
        | b1 :: r1 =>
            let c := Z.lor (Z.shiftl (Z.land b0 0x1F) 6) (payload b1) in
            if is_continuation b1 && (0x80 <=? c)
            then cons c <$> decodeUtf8 r1 else None
        | _ => None
        end
      else if (0xE0 <=? b0) && (b0 <? 0xF0) then
        match r0 with
        | b1 :: b2 :: r2 =>
            let c := Z.lor (Z.shiftl (Z.land b0 0x0F) 12)
                       (Z.lor (Z.shiftl (payload b1) 6) (payload b2)) in
            if is_continuation b1 && is_continuation b2
               && (0x800 <=? c) && is_scalar c
            then cons c <$> decodeUtf8 r2 else None
        | _ => None
        end
      else if (0xF0 <=? b0) && (b0 <? 0xF8) then
        match r0 with
        | b1 :: b2 :: b3 :: r3 =>
            let c := Z.lor (Z.shiftl (Z.land b0 0x07) 18)
                       (Z.lor (Z.shiftl (payload b1) 12)
                          (Z.lor (Z.shiftl (payload b2) 6) (payload b3))) in
            if is_continuation b1 && is_continuation b2 && is_continuation b3
               && (0x10000 <=? c) && is_scalar c
            then cons c <$> decodeUtf8 r3 else None
        | _ => None
        end
      else None
  end.

(** Modelled from the spec: the wide representation is either of the two
    the spec names, one unit per code point or surrogate pairs. *)
Inductive wide_encoding := UTF32 | UTF16.

(** Modelled from the spec: the units of one code point in UTF-16; a code
    point outside the basic multilingual plane is a surrogate pair. *)
Definition utf16_units (c : Z) : list Z :=
  if c <? 0x10000 then [c]
  else [0xD800 + Z.shiftr (c - 0x10000) 10;
        0xDC00 + Z.land (c - 0x10000) 0x3FF].

Definition is_high_surrogate (u : Z) : bool := (0xD800 <=? u) && (u <? 0xDC00).
Definition is_low_surrogate (u : Z) : bool := (0xDC00 <=? u) && (u <? 0xE000).

(** Modelled from the spec: reading UTF-16 units back as code points; an
    unpaired surrogate is reported. *)
Fixpoint utf16_decode (w : list Z) : option (list Z) :=
  match w with
  | [] => Some []
  | u :: r =>
      if is_high_surrogate u then
        match r with
        | l :: r' =>
            if is_low_surrogate l
            then cons (0x10000 + Z.shiftl (u - 0xD800) 10 + (l - 0xDC00))
                   <$> utf16_decode r'
            else None
        | [] => None
        end
      else if is_low_surrogate u then None
      else if (0 <=? u) && (u <? 0x10000) then cons u <$> utf16_decode r
      else None
  end.

(** Modelled from the spec: code points to wide units and back. *)
Definition wide_encode (enc : wide_encoding) (s : list Z) : list Z :=
  match enc with
  | UTF32 => s
  | UTF16 => flat_map utf16_units s
  end.

Definition wide_decode (enc : wide_encoding) (w : list Z) : option (list Z) :=
  match enc with
  | UTF32 => if forallb is_scalar w then Some w else None
  | UTF16 => utf16_decode w
  end.

End Utf8.

(** ** The wide string wrapper: class [string] *)

Module Str.

(** [class string : public std::wstring]: the sequence of its units. *)
Definition string := list Z.

(** [string() {}] *)
Definition string_default : string := [].

(** [string(const std::wstring &other) : std::wstring(other) {}] and the
    two other constructors from wide text: a copy, no conversion. *)
Definition string_of_wide (other : list Z) : string := other.

(** [string& operator=(const std::wstring &other)
      { assign(other); return *this; }] *)
Definition string_assign (this : string) (other : list Z) : string := other.

(** Modelled from the spec: [string(const std::string&)], construction
    from a utf-8 byte sequence, which decodes the sequence into the
    internal wide representation and reports malformed input. *)
Definition string_of_utf8 (enc : Utf8.wide_encoding) (other : list Z)
  : option string :=
  s ← Utf8.decodeUtf8 other; Some (Utf8.wide_encode enc s).

(** Modelled from the spec: [operator std::string() const], the
    conversion to utf-8, which encodes the internal wide representation
    into a byte sequence and reports an invalid code sequence. *)
Definition string_to_utf8 (enc : Utf8.wide_encoding) (this : string)
  : option (list Z) :=
  s ← Utf8.wide_decode enc this; Utf8.encodeUtf8 s.

(** A [std::ostream], as far as the insertion of a [std::string] reads
    and changes it: the chars its buffer has received, whether
    [rdstate()] is [goodbit], the field width [width()], the fill char
    [fill()], and whether the adjustment flag is [left].  The exception
    mask is the default one (no change of state throws) and the buffer
    takes every char it is given. *)
Record ostream := mk_ostream {
  chars : list Z;
  good : bool;
  width : nat;
  fill : Z;
  left : bool
}.

(** [out << utf8] for a [std::string], a formatted output function of
    the standard library.  On a stream that is not good nothing is
    inserted.  Otherwise the string is inserted, with [width() - size()]
    fill chars when the width is larger than the size, after the string
    under [left] and before it otherwise, and [width(0)] is called. *)
Definition ostream_insert (out : ostream) (s : list Z) : ostream :=
  if good out then
    let pad := replicate (width out - length s) (fill out) in
    mk_ostream (chars out ++ (if left out then s ++ pad else pad ++ s))
      true 0 (fill out) (left out)
  else out.

Section Printing.

(** [operator std::string() const] is declared in the header, its
    definition is elsewhere: printing is modelled over any such
    conversion.  [None] is the exception a failed conversion throws. *)
Variable to_std_string : string -> option (list Z).

(** [std::ostream& operator<<(std::ostream &out, const string &str)
     {
       const std::string utf8(str);
       out << utf8;
       return out;
     }] *)
Definition operator_shl (out : ostream) (str : string) : option ostream :=
  utf8 ← to_std_string str;
  let out := ostream_insert out utf8 in
  Some out.

End Printing.

End Str.

(** ** Error wrapping: class [Error] and the macro [CATCH_AND_WRAP] *)

Module Errors.

Local Open Scope string_scope.

(** [class Error : public std::runtime_error], or a class derived from it. *)
Inductive error_class :=
| Error_itself
| Error_subclass (name : string).

(** An exception in flight, as far as the handlers of the macro tell
    exceptions apart: its dynamic type and the text it carries.  A
    pointer to chars is null ([None]) or points to a text. *)
Inductive thrown :=
| Thrown_Error (cls : error_class) (what : string)
    (* ::mysqlx::Error or a subclass; [what] is [e.what()] *)
| Thrown_std_exception (cls : string) (what : option string)
    (* a class derived from std::exception and not from Error; [what] is
       the pointer its [what()] returns *)
| Thrown_c_string (e : option string)
    (* a pointer to chars *)
| Thrown_nullptr
    (* [throw nullptr;], of type std::nullptr_t *)
| Thrown_other (type_name : string).
    (* any other type: no what(), no text *)

(** What the constructor of [std::runtime_error] does with a null
    pointer: the base is built from a [std::string] of the pointer, which
    has no defined result for a null pointer; the implementation in use
    throws [std::logic_error] with this text. *)
Definition null_construction : thrown :=
  Thrown_std_exception "std::logic_error"
    (Some "basic_string: construction from null is not valid").

(** [throw ::mysqlx::Error(msg)] with
    [Error(const char *msg) : std::runtime_error(msg) {}]: the exception
    that leaves the throw expression, the [Error] built from the text, or
    what the construction throws. *)
Definition Error (msg : option string) : thrown :=
  match msg with
  | Some text => Thrown_Error Error_itself text
  | None => null_construction
  end.


(** The exception declarations of the four handlers. *)
Inductive handler :=
| catch_Error           (* catch (const ::mysqlx::Error&) *)
| catch_std_exception   (* catch (const std::exception &e) *)
| catch_c_string        (* catch (const char *e) *)
| catch_all.            (* catch (...) *)

(** Whether a handler is a match for the exception: a handler for a
    reference to a class catches that class and the classes derived from
    it, and [Error] derives from [std::exception]; a handler of pointer
    type catches a pointer that converts to it and a [std::nullptr_t]. *)
Definition handler_matches (h : handler) (e : thrown) : bool :=
  match h, e with
  | catch_Error, Thrown_Error _ _ => true
  | catch_std_exception, Thrown_Error _ _ => true
  | catch_std_exception, Thrown_std_exception _ _ => true
  | catch_c_string, Thrown_c_string _ => true
  | catch_c_string, Thrown_nullptr => true
  | catch_all, _ => true
  | _, _ => false
  end.

(** [e.what()] inside [catch (const std::exception &e)]. *)
Definition what (e : thrown) : option string :=
  match e with
  | Thrown_Error _ w => Some w
  | Thrown_std_exception _ w => w
  | Thrown_c_string _ => None
  | Thrown_nullptr => None
  | Thrown_other _ => None
  end.

(** The bodies of the handlers; each one throws, and what a body throws
    is not caught by the handlers after it. *)
Definition handler_body (h : handler) (e : thrown) : thrown :=
  match h with
  | catch_Error => e                                (* { throw; } *)
  | catch_std_exception => Error (what e)   (* { throw ::mysqlx::Error(e.what()); } *)
  | catch_c_string =>
      match e with
      | Thrown_c_string s => Error s                (* { throw ::mysqlx::Error(e); } *)
      | Thrown_nullptr => Error None                (* [e] is the null pointer *)
      | _ => e
      end
  | catch_all => Error (Some "Unknown exception")
                               (* { throw ::mysqlx::Error("Unknown exception"); } *)
  end.

(** The handlers of a try block are tried in the order they are written;
    with no match the exception keeps propagating. *)
Fixpoint try_handlers (hs : list handler) (e : thrown) : thrown :=
  match hs with
  | [] => e
  | h :: hs' =>
      if handler_matches h e then handler_body h e else try_handlers hs' e
  end.

(** [#define CATCH_AND_WRAP ...]: the four handlers in their order. *)
Definition CATCH_AND_WRAP : list handler :=
  [catch_Error; catch_std_exception; catch_c_string; catch_all].

(** What leaves [try { ... } CATCH_AND_WRAP] when the block throws [e]. *)
Definition catch_and_wrap (e : thrown) : thrown :=
  try_handlers CATCH_AND_WRAP e.

Definition is_Error (e : thrown) : bool :=
  match e with Thrown_Error _ _ => true | _ => false end.

End Errors.

(** ** The conversions class [string] declares *)

Module Conv.

(** The types the constructors and the conversion function of
    [string] relate. *)
Inductive cxx_type :=
| mysqlx_string      (* mysqlx::string *)
| std_wstring        (* std::wstring *)
| std_string         (* std::string, holding utf-8 *)
| wchar_pointer      (* const wchar_t * *)
| char_pointer.      (* const char * *)

#[global] Instance cxx_type_eq_dec : EqDecision cxx_type.
Proof. solve_decision. Defined.

(** A converting constructor or a conversion function, and whether its
    declaration carries the [explicit] specifier. *)
Record conversion := mkConversion {
  source : cxx_type;
  target : cxx_type;
  is_explicit : bool
}.

(** The declarations in [class string], in their order; none of them is
    declared [explicit] (the header keeps a TODO for that). *)
Definition string_conversions : list conversion :=
  [ mkConversion wchar_pointer mysqlx_string false
      (* string(const wchar_t *other) *)
  ; mkConversion std_wstring mysqlx_string false
      (* string(const std::wstring &other) *)
  ; mkConversion std_wstring mysqlx_string false
      (* string(std::wstring &&other) *)
  ; mkConversion char_pointer mysqlx_string false
      (* string(const char *other) *)
  ; mkConversion std_string mysqlx_string false
      (* string(const std::string&) *)
  ; mkConversion mysqlx_string std_string false
      (* operator std::string() const *)
  ].

(** How calling code asks for a value of another type. *)
Inductive initialization :=
| direct_initialization
    (* std::string u(s); static_cast<std::string>(s): an explicit request *)
| copy_initialization.
    (* std::string u = s; passing s for a std::string parameter;
       returning s from a function that returns std::string *)

(** A user-defined conversion is a candidate in a direct initialization
    always, and in a copy initialization only when it is not [explicit]. *)
Definition candidate (ctx : initialization) (f : conversion) : bool :=
  match ctx with
  | direct_initialization => true
  | copy_initialization => negb (is_explicit f)
  end.

Definition converts (from to : cxx_type) (f : conversion) : bool :=
  bool_decide (source f = from) && bool_decide (target f = to).

(** The conversions from [from] to [to] that the context can use. *)
Definition viable (ctx : initialization) (from to : cxx_type) : list conversion :=
  filter (fun f => converts from to f && candidate ctx f = true)
    string_conversions.

Definition convertible (ctx : initialization) (from to : cxx_type) : bool :=
  bool_decide (viable ctx from to <> []).

End Conv.

(** ** Printable objects: class [internal::Printable] *)

Module Print.

(** [class Printable { virtual void print(std::ostream&) const = 0; ... }]:
    the interface of the objects that print themselves; the stream is
    passed through. *)
Class Printable (A : Type) := print : A -> Str.ostream -> Str.ostream.

(** [std::ostream& operator<<(std::ostream &out, const Printable &obj)
     {
       obj.print(out);
       return out;
     }] *)
Definition operator_shl {A : Type} `{Printable A} (out : Str.ostream) (obj : A)
  : Str.ostream :=
  let out := print obj out in
  out.


End Print.

(** ** The macro [THROW] *)

Module Throw.


(** How a statement that does not complete ends. *)
Inductive outcome :=
| aborts
| throws (e : Errors.thrown).

(** [assert(cond)] followed by the statements [rest]: a failed assertion
    that is compiled in aborts the program. *)
Definition assert (NDEBUG : bool) (cond : bool) (rest : outcome) : outcome :=
  if NDEBUG then rest else if cond then rest else aborts.



End Throw.

(** * Properties *)

(** ** [GUID] *)

Section GuidFacts.

Import GUID.

Lemma char_at_lookup (t : list Z) (i : nat) (c : Z) :
  t !! i = Some c -> char_at t i = c.
Proof. unfold char_at. intros ->. reflexivity. Qed.

Lemma char_at_end (t : list Z) (i : nat) :
  length t <= i -> char_at t i = 0%Z.
Proof.
  intros Hi. unfold char_at. rewrite (lookup_ge_None_2 t i) by lia. reflexivity.
Qed.

Lemma c_text_lookup (t : list Z) (i : nat) (c : Z) :
  c_text t -> t !! i = Some c -> c <> 0%Z.
Proof.
  unfold c_text. rewrite Forall_lookup. intros Ht Hi. exact (Ht i c Hi).
Qed.

(** The loop never needs more than one test per array slot plus the
    final one. *)
Lemma set_loop_fuel (fuel : nat) (data : list Z) (i : nat) (m : list Z) :
  sizeof_m_data - i < fuel -> is_Some (set_loop fuel data i m).
Proof.
  revert i m. induction fuel as [|fuel IH]; intros i m Hfuel; [lia|].
  simpl. destruct (negb (char_at data i =? 0)%Z && (i <? sizeof_m_data)) eqn:Hg.
  - apply IH. apply andb_true_iff in Hg as [_ Hlt].
    apply Nat.ltb_lt in Hlt. lia.
  - eauto.
Qed.

(** The loop stores into slots of the array, so the array keeps its size. *)
Lemma set_loop_length (fuel : nat) (data : list Z) (i : nat) (m m' : list Z) :
  set_loop fuel data i m = Some m' -> length m' = length m.
Proof.
  revert i m. induction fuel as [|fuel IH]; intros i m; simpl; [discriminate|].
  destruct (negb (char_at data i =? 0)%Z && (i <? sizeof_m_data)).
  - intros H. apply IH in H. rewrite H. apply length_insert.
  - intros [= <-]. reflexivity.
Qed.

(** More fuel does not change a result. *)
Lemma set_loop_more_fuel (fuel extra : nat) (data : list Z) (i : nat)
    (m m' : list Z) :
  set_loop fuel data i m = Some m' ->
  set_loop (fuel + extra) data i m = Some m'.
Proof.
  revert i m. induction fuel as [|fuel IH]; intros i m; simpl; [discriminate|].
  destruct (negb (char_at data i =? 0)%Z && (i <? sizeof_m_data)); auto.
Qed.

(** One iteration on the loop invariant: slots below [i] hold the text,
    slots from [i] on hold what they held at entry. *)
Lemma set_loop_step (t m0 : list Z) (i : nat) (c : Z) :
  t !! i = Some c -> i < length m0 ->
  <[i := c]> (take i t ++ drop i m0) = take (S i) t ++ drop (S i) m0.
Proof.
  intros Ht Hi.
  assert (Hlen : length (take i t) = i).
  { rewrite length_take. apply lookup_lt_Some in Ht. lia. }
  rewrite insert_app_r_alt by lia. rewrite Hlen, Nat.sub_diag.
  destruct (lookup_lt_is_Some_2 m0 i Hi) as [y Hy].
  rewrite (drop_S m0 y i Hy). simpl.
  rewrite (take_S_r t i c Ht), <- app_assoc. reflexivity.
Qed.

Lemma set_loop_text (fuel : nat) (t m0 : list Z) (i : nat) :
  c_text t -> length m0 = sizeof_m_data ->
  i <= length t `min` sizeof_m_data ->
  length t `min` sizeof_m_data - i < fuel ->
  set_loop fuel t i (take i t ++ drop i m0)
  = Some (take (length t `min` sizeof_m_data) t
          ++ drop (length t `min` sizeof_m_data) m0).
Proof.
  intros Htext Hm0. revert i.
  induction fuel as [|fuel IH]; intros i Hi Hfuel; [lia|].
  simpl. destruct (decide (i < length t `min` sizeof_m_data)) as [Hlt|Hge].
  - destruct (lookup_lt_is_Some_2 t i ltac:(lia)) as [c Hc].
    rewrite (char_at_lookup t i c Hc).
    pose proof (c_text_lookup t i c Htext Hc) as Hnz.
    apply Z.eqb_neq in Hnz. rewrite Hnz.
    assert (Hi32 : (i <? sizeof_m_data) = true) by (apply Nat.ltb_lt; lia).
    rewrite Hi32. simpl.
    rewrite set_loop_step by (auto; lia).
    apply IH; lia.
  - assert (Hk : i = length t `min` sizeof_m_data) by lia.
    assert (Hguard :
      negb (char_at t i =? 0)%Z && (i <? sizeof_m_data) = false).
    { destruct (decide (length t <= i)) as [Hend|Hin].
      - rewrite char_at_end by lia. reflexivity.
      - apply andb_false_iff. right. apply Nat.ltb_ge. lia. }
    rewrite Hguard, <- Hk. reflexivity.
Qed.

(** [set] on a text: the first [min(n, 32)] chars of the text, then the
    former content of the other slots. *)
Lemma set_text (t : list Z) (g : GUID) :
  c_text t -> length (m_data g) = sizeof_m_data ->
  set t g = Some (mkGUID (take (length t `min` sizeof_m_data) t
                          ++ drop (length t `min` sizeof_m_data) (m_data g))).
Proof.
  intros Ht Hg. unfold set.
  pose proof (set_loop_text set_fuel t (m_data g) 0 Ht Hg) as H.
  change (take 0 t ++ drop 0 (m_data g)) with (m_data g) in H.
  rewrite H; [reflexivity | lia | unfold set_fuel; lia].
Qed.

Lemma set_total (data : list Z) (g : GUID) : is_Some (set data g).
Proof.
  unfold set.
  destruct (set_loop_fuel set_fuel data 0 (m_data g)) as [m' Hm'].
  { unfold set_fuel. lia. }
  rewrite Hm'. simpl. eauto.
Qed.

Lemma set_length (data : list Z) (g g' : GUID) :
  set data g = Some g' -> length (m_data g') = length (m_data g).
Proof.
  unfold set. destruct (set_loop set_fuel data 0 (m_data g)) as [m'|] eqn:E;
    simpl; [|discriminate].
  intros [= <-]. simpl. eapply set_loop_length, E.
Qed.

(** Every value keeps the 32 slots of its array. *)
Lemma GUID_value_length (g : GUID) :
  GUID_value g -> length (m_data g) = sizeof_m_data.
Proof.
  induction 1 as [|storage data g Hs Hg|g data g' _ IH Hg].
  - reflexivity.
  - apply set_length in Hg. simpl in Hg. congruence.
  - apply set_length in Hg. congruence.
Qed.

(** The default constructor gives 32 zero chars. *)
Lemma GUID_default_to_string :
  GUID_to_string GUID_default = replicate 32 0%Z.
Proof. reflexivity. Qed.

(** A text of 32 chars or more fills the array: its first 32 chars. *)
Lemma GUID_of_long_text (storage t : list Z) :
  c_text t -> length storage = sizeof_m_data -> sizeof_m_data <= length t ->
  GUID_to_string <$> GUID_of_text storage t = Some (take sizeof_m_data t).
Proof.
  intros Ht Hs Hlen. unfold GUID_of_text.
  rewrite set_text by assumption. simpl.
  rewrite Nat.min_r by lia. unfold GUID_to_string. simpl.
  rewrite take_app_le by (rewrite length_take; lia).
  rewrite take_take, Nat.min_id. reflexivity.
Qed.

(** A shorter text over zeroed storage is zero-padded. *)
Lemma GUID_of_short_text_zeroed (t : list Z) :
  c_text t -> length t < sizeof_m_data ->
  GUID_to_string <$> GUID_of_text (replicate sizeof_m_data 0%Z) t
  = Some (t ++ replicate (sizeof_m_data - length t) 0%Z).
Proof.
  intros Ht Hlen. unfold GUID_of_text.
  rewrite set_text; [|assumption|apply length_replicate].
  cbn [fmap option_fmap option_map m_data]. unfold GUID_to_string.
  cbn [m_data]. rewrite Nat.min_l by lia.
  rewrite firstn_all, drop_replicate.
  rewrite take_ge; [reflexivity|].
  rewrite length_app, length_replicate. lia.
Qed.

End GuidFacts.

(** C3, the part the code misses.  [GUID("abc")] over storage whose 32
    chars all hold [0xAA] converts to "abc" followed by 29 chars [0xAA]:
    the constructor from text does not clear the array, so the chars
    after the text are what the storage held, not zero bytes. *)
Theorem GUID_of_short_text_not_padded :
  GUID.GUID_to_string <$>
    GUID.GUID_of_text (replicate 32 170%Z) [97; 98; 99]%Z
  = Some ([97; 98; 99]%Z ++ replicate 29 170%Z)
  /\ [97; 98; 99]%Z ++ replicate 29 170%Z
     <> [97; 98; 99]%Z ++ replicate 29 0%Z.
Proof. split; [vm_compute; reflexivity | discriminate]. Qed.

(** C9.  Every [GUID] value, built by the default constructor, built from
    a text, or assigned a text any number of times, converts to the
    whole array: the string is the 32 chars of [m_data], zero chars and
    chars left from before included, so its length is exactly 32. *)
Theorem GUID_to_string_length (g : GUID.GUID) :
  GUID.GUID_value g ->
  GUID.GUID_to_string g = GUID.m_data g
  /\ length (GUID.GUID_to_string g) = 32.
Proof.
  intros Hg. apply GUID_value_length in Hg. unfold GUID.GUID_to_string.
  rewrite <- Hg, firstn_all. split; [reflexivity | exact Hg].
Qed.

Lemma GUID_to_string_length_witness :
  GUID.GUID_value (GUID.mkGUID ([97; 98; 99]%Z ++ replicate 29 170%Z))
  /\ GUID.GUID_to_string
       (GUID.mkGUID ([97; 98; 99]%Z ++ replicate 29 170%Z))
     = [97; 98; 99]%Z ++ replicate 29 170%Z
  /\ length (GUID.GUID_to_string
               (GUID.mkGUID ([97; 98; 99]%Z ++ replicate 29 170%Z))) = 32.
Proof.
  assert (H : GUID.GUID_value
                (GUID.mkGUID ([97; 98; 99]%Z ++ replicate 29 170%Z))).
  { apply (GUID.gv_of_text (replicate 32 170%Z) [97; 98; 99]%Z);
      reflexivity. }
  split; [exact H | exact (GUID_to_string_length _ H)].
Defined.

(** C10.  Setting a [GUID] from a text of [n] chars, by the constructor
    over the storage [m_data g] or by assignment to [g], stores the chars
    of the text into the slots [0 .. min(n,32)-1] and leaves every slot
    from [min(n,32)] on with the value it held before. *)
Theorem set_writes_only_text_prefix (t : list Z) (g : GUID.GUID) :
  GUID.c_text t ->
  length (GUID.m_data g) = 32 ->
  exists g',
    GUID.GUID_assign g t = Some g'
    /\ GUID.GUID_of_text (GUID.m_data g) t = Some g'
    /\ (forall i, i < length t `min` 32 ->
          GUID.m_data g' !! i = t !! i)
    /\ (forall i, length t `min` 32 <= i ->
          GUID.m_data g' !! i = GUID.m_data g !! i).
Proof.
  intros Ht Hg. destruct g as [m]. simpl in Hg.
  pose proof (set_text t (GUID.mkGUID m) Ht Hg) as Hset.
  fold GUID.sizeof_m_data. simpl GUID.m_data in *.
  set (k := length t `min` GUID.sizeof_m_data) in *.
  assert (Hk : length (take k t) = k) by (rewrite length_take; lia).
  eexists. split; [exact Hset|]. split; [exact Hset|]. simpl. split.
  - intros i Hi. rewrite lookup_app_l by lia. apply lookup_take_lt. lia.
  - intros i Hi. rewrite lookup_app_r by lia. rewrite Hk, lookup_drop.
    f_equal. lia.
Qed.

Lemma set_writes_only_text_prefix_witness :
  GUID.c_text [97; 98; 99]%Z
  /\ length (GUID.m_data (GUID.mkGUID (replicate 32 170%Z))) = 32
  /\ exists g',
       GUID.GUID_assign (GUID.mkGUID (replicate 32 170%Z)) [97; 98; 99]%Z
       = Some g'
       /\ GUID.GUID_of_text
            (GUID.m_data (GUID.mkGUID (replicate 32 170%Z))) [97; 98; 99]%Z
          = Some g'
       /\ (forall i, i < length [97; 98; 99]%Z `min` 32 ->
             GUID.m_data g' !! i = [97; 98; 99]%Z !! i)
       /\ (forall i, length [97; 98; 99]%Z `min` 32 <= i ->
             GUID.m_data g' !! i
             = GUID.m_data (GUID.mkGUID (replicate 32 170%Z)) !! i).
Proof.
  assert (Ht : GUID.c_text [97; 98; 99]%Z).
  { unfold GUID.c_text. repeat constructor; discriminate. }
  split; [exact Ht|]. split; [reflexivity|].
  apply (set_writes_only_text_prefix [97; 98; 99]%Z
           (GUID.mkGUID (replicate 32 170%Z)) Ht).
  reflexivity.
Defined.

(** ** [bytes] *)

Section BytesFacts.

Import Bytes.
Local Open Scope Z_scope.

Lemma to_size_t_ptrdiff (x : Z) : to_size_t (to_ptrdiff_t x) = to_size_t x.
Proof.
  unfold to_size_t, to_ptrdiff_t.
  rewrite Zminus_mod_idemp_l. f_equal. lia.
Qed.

Lemma to_size_t_in_range (x : Z) : in_range x -> to_size_t x = x.
Proof. unfold in_range, to_size_t. intros H. apply Z.mod_small. exact H. Qed.

Lemma to_ptrdiff_t_small (x : Z) :
  - 2 ^ (size_bits - 1) <= x < 2 ^ (size_bits - 1) -> to_ptrdiff_t x = x.
Proof.
  unfold to_ptrdiff_t, size_bits. simpl. intros H.
  rewrite Z.mod_small; lia.
Qed.

(** The distance from [p] to [p + n], read as a [size_t], is [n]. *)
Lemma ptr_diff_add (p n : Z) :
  to_size_t (ptr_diff (ptr_add p n) p) = to_size_t n.
Proof.
  unfold ptr_diff, ptr_add. rewrite to_size_t_ptrdiff. unfold to_size_t.
  rewrite Zminus_mod_idemp_l. f_equal. lia.
Qed.

(** [strlen] counts up to the terminator that ends the text. *)
Lemma strlen_from_text (fuel : nat) (mem : memory) (str : Z) (t : list Z)
    (i : nat) :
  holds_text mem str t ->
  (i <= List.length t)%nat ->
  (List.length t - i < fuel)%nat ->
  strlen_from fuel mem str (Z.of_nat i) = Some (Z.of_nat (List.length t)).
Proof.
  intros [Hchars Hend]. revert i.
  induction fuel as [|fuel IH]; intros i Hi Hfuel; [lia|].
  simpl. destruct (decide (i < List.length t)%nat) as [Hlt|Hge].
  - destruct (lookup_lt_is_Some_2 t i Hlt) as [c Hc].
    destruct (Hchars i c Hc) as [Hmem Hnz].
    rewrite Hmem. apply Z.eqb_neq in Hnz. rewrite Hnz.
    replace (Z.of_nat i + 1) with (Z.of_nat (S i)) by lia.
    apply IH; lia.
  - assert (i = List.length t) as -> by lia.
    rewrite Hend. reflexivity.
Qed.

Lemma holds_text_memory_of (base : Z) (t : list Z) :
  Forall (fun c => c <> 0) t -> holds_text (memory_of base t) base t.
Proof.
  intros Ht. split.
  - intros i c Hc. unfold memory_of.
    rewrite (proj2 (Z.leb_le _ _)) by lia.
    replace (Z.to_nat (base + Z.of_nat i - base)) with i by lia.
    rewrite Hc. split; [reflexivity|].
    rewrite Forall_lookup in Ht. exact (Ht i c Hc).
  - unfold memory_of. rewrite (proj2 (Z.leb_le _ _)) by lia.
    replace (Z.to_nat (base + Z.of_nat (List.length t) - base))
      with (List.length t) by lia.
    rewrite lookup_ge_None_2 by lia. reflexivity.
Qed.

End BytesFacts.

(** [in_range] of a literal. *)
Ltac in_range_literal :=
  unfold Bytes.in_range;
  change (2 ^ Bytes.size_bits)%Z with 18446744073709551616%Z;
  simpl; lia.

(** C2 as stated fails: the constructor from a pointer and a length
    stores the length it is given, also under a null pointer. *)
Lemma bytes_of_len_null_has_length :
  Bytes.length (Bytes.bytes_of_len Bytes.NULL 5) <> 0%Z.
Proof. discriminate. Qed.

(** C2, amended.  A view built from a null C string and the default view
    have length 0; the view built from a pointer and a length [len] has
    length [len], whatever the pointer, null included. *)
Theorem bytes_null_source_length :
  (forall fuel mem,
     Bytes.length <$> Bytes.bytes_of_str fuel mem Bytes.NULL = Some 0%Z)
  /\ Bytes.length Bytes.bytes_default = 0%Z
  /\ (forall beg len, Bytes.length (Bytes.bytes_of_len beg len) = len)
  /\ (forall len, Bytes.length (Bytes.bytes_of_len Bytes.NULL len) = len).
Proof. repeat split. Qed.

(** C5.  For a view [b] whose members are values of their types,
    [b.end() - b.begin() == b.length()] holds (the comparison converts
    the pointer difference to [size_t]), and the difference is the length
    itself when the length fits [ptrdiff_t]; the view built from two
    pointers [beg_ <= end_] has length [end_ - beg_]. *)
Theorem bytes_end_minus_begin (b : Bytes.bytes) (beg_ end_ : Z) :
  Bytes.well_typed b ->
  Bytes.in_range beg_ -> Bytes.in_range end_ -> (beg_ <= end_)%Z ->
  Bytes.to_size_t (Bytes.ptr_diff (Bytes.end_ b) (Bytes.begin b))
  = Bytes.length b
  /\ ((Bytes.length b < 2 ^ 63)%Z ->
      Bytes.ptr_diff (Bytes.end_ b) (Bytes.begin b) = Bytes.length b)
  /\ Bytes.length (Bytes.bytes_of_range beg_ end_) = (end_ - beg_)%Z
  /\ Bytes.well_typed (Bytes.bytes_of_range beg_ end_)
  /\ Bytes.size b = Bytes.length b.
Proof.
  intros [Hf Hs] Hb He Hle.
  assert (Hsize : Bytes.to_size_t
                    (Bytes.ptr_diff (Bytes.end_ b) (Bytes.begin b))
                  = Bytes.length b).
  { unfold Bytes.end_, Bytes.begin, Bytes.length.
    rewrite ptr_diff_add. apply to_size_t_in_range, Hs. }
  assert (Hrange : Bytes.to_size_t (Bytes.ptr_diff end_ beg_)
                   = (end_ - beg_)%Z).
  { unfold Bytes.ptr_diff. rewrite to_size_t_ptrdiff.
    apply to_size_t_in_range. unfold Bytes.in_range in *. lia. }
  split; [exact Hsize|]. split; [|split; [exact Hrange|split]].
  - intros Hsmall. unfold Bytes.ptr_diff in *.
    rewrite to_size_t_ptrdiff in Hsize.
    unfold Bytes.to_ptrdiff_t. rewrite <- Zplus_mod_idemp_l.
    fold (Bytes.to_size_t (Bytes.end_ b - Bytes.begin b)).
    rewrite Hsize. unfold Bytes.in_range, Bytes.length in *.
    change (2 ^ Bytes.size_bits)%Z with 18446744073709551616%Z in *.
    change (2 ^ (Bytes.size_bits - 1))%Z with 9223372036854775808%Z.
    change (2 ^ 63)%Z with 9223372036854775808%Z in Hsmall.
    rewrite Z.mod_small; lia.
  - unfold Bytes.well_typed, Bytes.bytes_of_range. simpl.
    rewrite Hrange. unfold Bytes.in_range in *. split; [exact Hb|lia].
  - reflexivity.
Qed.

Lemma bytes_end_minus_begin_witness :
  Bytes.well_typed (Bytes.bytes_of_len 4096 12)
  /\ Bytes.in_range 4096 /\ Bytes.in_range 4108 /\ (4096 <= 4108)%Z
  /\ Bytes.to_size_t
       (Bytes.ptr_diff (Bytes.end_ (Bytes.bytes_of_len 4096 12))
          (Bytes.begin (Bytes.bytes_of_len 4096 12)))
     = Bytes.length (Bytes.bytes_of_len 4096 12)
  /\ Bytes.length (Bytes.bytes_of_range 4096 4108) = (4108 - 4096)%Z.
Proof.
  assert (H1 : Bytes.well_typed (Bytes.bytes_of_len 4096 12)).
  { split; in_range_literal. }
  assert (H2 : Bytes.in_range 4096) by in_range_literal.
  assert (H3 : Bytes.in_range 4108) by in_range_literal.
  assert (H4 : (4096 <= 4108)%Z) by lia.
  pose proof (bytes_end_minus_begin (Bytes.bytes_of_len 4096 12) 4096 4108
                H1 H2 H3 H4) as (Ha & _ & Hb & _).
  exact (conj H1 (conj H2 (conj H3 (conj H4 (conj Ha Hb))))).
Defined.

(** C6.  For a non-null [str] that points to the chars [t] followed by
    the terminator, the view built from [str] begins at [str] and its
    length is the number of chars of [t]; for a null [str] the view is
    built as well, with [begin = NULL] and length 0. *)
Theorem bytes_of_str_length (fuel : nat) (mem : Bytes.memory) (str : Z)
    (t : list Z) :
  str <> Bytes.NULL ->
  Bytes.holds_text mem str t ->
  length t < fuel ->
  Bytes.bytes_of_str fuel mem str
  = Some (Bytes.pair str (Z.of_nat (length t)))
  /\ (forall fuel' mem',
        Bytes.bytes_of_str fuel' mem' Bytes.NULL
        = Some (Bytes.pair Bytes.NULL 0)).
Proof.
  intros Hstr Htext Hfuel. split; [|reflexivity].
  unfold Bytes.bytes_of_str.
  assert (Hnull : (Bytes.NULL =? str)%Z = false).
  { apply Z.eqb_neq. congruence. }
  rewrite Hnull. simpl negb. cbv iota.
  unfold Bytes.strlen.
  pose proof (strlen_from_text fuel mem str t 0 Htext) as Hlen.
  change (Z.of_nat 0) with 0%Z in Hlen.
  rewrite Hlen by lia. reflexivity.
Qed.

Lemma bytes_of_str_length_witness :
  4096%Z <> Bytes.NULL
  /\ Bytes.holds_text (Bytes.memory_of 4096 [97; 98; 99]%Z) 4096
       [97; 98; 99]%Z
  /\ length [97; 98; 99]%Z < 4
  /\ Bytes.bytes_of_str 4 (Bytes.memory_of 4096 [97; 98; 99]%Z) 4096
     = Some (Bytes.pair 4096 (Z.of_nat (length [97; 98; 99]%Z))).
Proof.
  assert (H1 : 4096%Z <> Bytes.NULL) by discriminate.
  assert (H2 : Bytes.holds_text (Bytes.memory_of 4096 [97; 98; 99]%Z) 4096
                 [97; 98; 99]%Z).
  { apply holds_text_memory_of. repeat constructor; discriminate. }
  assert (H3 : length [97; 98; 99]%Z < 4) by (simpl; lia).
  pose proof (bytes_of_str_length 4 _ 4096 [97; 98; 99]%Z H1 H2 H3)
    as [Ha _].
  exact (conj H1 (conj H2 (conj H3 Ha))).
Defined.

(** ** [CATCH_AND_WRAP] *)

(** What leaves the macro is an [Error] except when a handler hands a
    null pointer to the constructor of [Error]. *)
Lemma catch_and_wrap_is_Error (e : Errors.thrown) :
  Errors.is_Error (Errors.catch_and_wrap e)
  = match e with
    | Errors.Thrown_c_string None => false
    | Errors.Thrown_nullptr => false
    | Errors.Thrown_std_exception _ None => false
    | _ => true
    end.
Proof. destruct e as [cls w|cls [w|]|[s|]| |ty]; reflexivity. Qed.

(** The handler for [std::exception] alone would rewrap an [Error]: the
    handler for [Error] has to come first. *)
Lemma std_handler_first_rewraps :
  Errors.try_handlers [Errors.catch_std_exception; Errors.catch_Error]
    (Errors.Thrown_Error (Errors.Error_subclass "Derived") "lost")
  = Errors.Thrown_Error Errors.Error_itself "lost".
Proof. reflexivity. Qed.


(** ** Conversions of [string] *)

(** C7 as stated fails: copy initialization of a [std::string] from a
    [mysqlx::string], which is how a conversion is applied without being
    asked for, finds the conversion function. *)
Lemma string_converts_implicitly :
  Conv.convertible Conv.copy_initialization Conv.mysqlx_string Conv.std_string
  = true.
Proof. reflexivity. Qed.

(** C7, amended.  The conversion of a [string] to utf-8 is the one
    conversion function [operator std::string() const]; it is not
    declared explicit, so it is used by an explicit request (direct
    initialization) and by an implicit one (copy initialization) alike;
    the same holds for the way back, from a [std::string] or a
    [const char *]. *)
Theorem string_utf8_conversion_contexts :
  forall ctx,
    Conv.viable ctx Conv.mysqlx_string Conv.std_string
    = [Conv.mkConversion Conv.mysqlx_string Conv.std_string false]
    /\ Conv.convertible ctx Conv.mysqlx_string Conv.std_string = true
    /\ Conv.convertible ctx Conv.std_string Conv.mysqlx_string = true
    /\ Conv.convertible ctx Conv.char_pointer Conv.mysqlx_string = true
    /\ Forall (fun f => Conv.is_explicit f = false) Conv.string_conversions.
Proof.
  intros ctx. destruct ctx; repeat split; repeat constructor.
Qed.

(** ** The utf-8 conversions of [string] *)

Section Utf8Facts.

Import Utf8.
Local Open Scope Z_scope.

(** *** Bit operations as arithmetic *)

Lemma land_high_low (hi lo k : Z) :
  0 <= k -> 0 <= lo < 2 ^ k -> Z.land (hi * 2 ^ k) lo = 0.
Proof.
  intros Hk Hlo. apply Z.bits_inj'. intros n Hn.
  rewrite Z.land_spec, Z.bits_0.
  destruct (Z.lt_ge_cases n k) as [Hlt|Hge].
  - rewrite Z.mul_pow2_bits_low by lia. reflexivity.
  - apply andb_false_iff. right.
    destruct (Z.eq_dec lo 0) as [->|Hnz]; [apply Z.bits_0|].
    apply Z.bits_above_log2; [lia|].
    assert (Z.log2 lo < k) by (apply Z.log2_lt_pow2; lia). lia.
Qed.

Lemma lor_high_low (hi lo k : Z) :
  0 <= k -> 0 <= lo < 2 ^ k -> Z.lor (hi * 2 ^ k) lo = hi * 2 ^ k + lo.
Proof.
  intros Hk Hlo. pose proof (Z.add_lor_land (hi * 2 ^ k) lo) as H.
  rewrite land_high_low in H by assumption. lia.
Qed.

Lemma lor_shiftl (hi lo k : Z) :
  0 <= k -> 0 <= lo < 2 ^ k -> Z.lor (Z.shiftl hi k) lo = hi * 2 ^ k + lo.
Proof.
  intros Hk Hlo. rewrite Z.shiftl_mul_pow2 by lia.
  apply lor_high_low; assumption.
Qed.

Lemma payload_mod (b : Z) : payload b = b mod 64.
Proof. unfold payload. apply (Z.land_ones b 6). lia. Qed.

Lemma continuation_add (x : Z) : continuation x = 128 + x mod 64.
Proof.
  unfold continuation. fold (payload x). rewrite payload_mod.
  pose proof (Z.mod_pos_bound x 64 ltac:(lia)).
  apply (lor_high_low 2 (x mod 64) 6); simpl; lia.
Qed.

Lemma lead2_add (x : Z) : 0 <= x < 32 -> Z.lor 0xC0 x = 192 + x.
Proof. intros H. apply (lor_high_low 6 x 5); simpl; lia. Qed.

Lemma lead3_add (x : Z) : 0 <= x < 16 -> Z.lor 0xE0 x = 224 + x.
Proof. intros H. apply (lor_high_low 14 x 4); simpl; lia. Qed.

Lemma lead4_add (x : Z) : 0 <= x < 8 -> Z.lor 0xF0 x = 240 + x.
Proof. intros H. apply (lor_high_low 30 x 3); simpl; lia. Qed.

Lemma land_1F (x : Z) : Z.land x 0x1F = x mod 32.
Proof. apply (Z.land_ones x 5). lia. Qed.

Lemma land_0F (x : Z) : Z.land x 0x0F = x mod 16.
Proof. apply (Z.land_ones x 4). lia. Qed.

Lemma land_07 (x : Z) : Z.land x 0x07 = x mod 8.
Proof. apply (Z.land_ones x 3). lia. Qed.

Lemma is_continuation_add (y : Z) :
  0 <= y < 64 -> is_continuation (128 + y) = true.
Proof.
  intros H. unfold is_continuation.
  apply andb_true_iff. split; [apply Z.leb_le | apply Z.ltb_lt]; lia.
Qed.

Lemma payload_add (y : Z) : 0 <= y < 64 -> payload (128 + y) = y.
Proof.
  intros H. rewrite payload_mod.
  replace (128 + y) with (y + 2 * 64) by lia.
  rewrite Z_mod_plus_full. apply Z.mod_small. lia.
Qed.

(** *** One code point at a time *)

Lemma between_true (a b c : Z) :
  a <= b < c -> (a <=? b) && (b <? c) = true.
Proof.
  intros H. apply andb_true_iff.
  split; [apply Z.leb_le | apply Z.ltb_lt]; lia.
Qed.

Lemma between_false (a b c : Z) :
  b < a \/ c <= b -> (a <=? b) && (b <? c) = false.
Proof.
  intros H. apply andb_false_iff.
  destruct H; [left; apply Z.leb_gt | right; apply Z.ltb_ge]; lia.
Qed.

(** Unfolds the decoder on its first byte only: the tail is put aside
    while the tests on the first byte are decided. *)
Ltac decode_head tail :=
  let r := fresh "r" in
  let Hr := fresh "Hr" in
  remember tail as r eqn:Hr;
  cbn [decodeUtf8];
  repeat first [ rewrite between_true by lia
               | rewrite between_false by lia ];
  subst r; cbv beta iota zeta.

Lemma decode_1 (c : Z) (rest : list Z) :
  0 <= c < 0x80 -> decodeUtf8 (c :: rest) = cons c <$> decodeUtf8 rest.
Proof. intros H. decode_head rest. reflexivity. Qed.

Lemma decode_2 (x y : Z) (rest : list Z) :
  2 <= x < 32 -> 0 <= y < 64 ->
  decodeUtf8 (192 + x :: 128 + y :: rest)
  = cons (x * 64 + y) <$> decodeUtf8 rest.
Proof.
  intros Hx Hy. decode_head (128 + y :: rest).
  rewrite land_1F, payload_add, is_continuation_add by lia.
  replace ((192 + x) mod 32) with x
    by (replace (192 + x) with (x + 6 * 32) by lia;
        rewrite Z_mod_plus_full, Z.mod_small; lia).
  rewrite (lor_shiftl x y 6) by (simpl; lia).
  change (2 ^ 6) with 64.
  rewrite (proj2 (Z.leb_le _ _)) by lia. reflexivity.
Qed.

Lemma decode_3 (x y z : Z) (rest : list Z) :
  0 <= x < 16 -> 0 <= y < 64 -> 0 <= z < 64 ->
  0x800 <= x * 4096 + y * 64 + z ->
  is_scalar (x * 4096 + y * 64 + z) = true ->
  decodeUtf8 (224 + x :: 128 + y :: 128 + z :: rest)
  = cons (x * 4096 + y * 64 + z) <$> decodeUtf8 rest.
Proof.
  intros Hx Hy Hz Hmin Hsc. decode_head (128 + y :: 128 + z :: rest).
  rewrite land_0F, !payload_add, !is_continuation_add by lia.
  replace ((224 + x) mod 16) with x
    by (replace (224 + x) with (x + 14 * 16) by lia;
        rewrite Z_mod_plus_full, Z.mod_small; lia).
  rewrite (lor_shiftl y z 6) by (simpl; lia).
  rewrite (lor_shiftl x (y * 2 ^ 6 + z) 12) by (simpl; lia).
  change (2 ^ 6) with 64. change (2 ^ 12) with 4096.
  replace (x * 4096 + (y * 64 + z)) with (x * 4096 + y * 64 + z) by lia.
  rewrite Hsc, (proj2 (Z.leb_le _ _)) by lia. reflexivity.
Qed.

Lemma decode_4 (x y z v : Z) (rest : list Z) :
  0 <= x < 8 -> 0 <= y < 64 -> 0 <= z < 64 -> 0 <= v < 64 ->
  0x10000 <= x * 262144 + y * 4096 + z * 64 + v ->
  is_scalar (x * 262144 + y * 4096 + z * 64 + v) = true ->
  decodeUtf8 (240 + x :: 128 + y :: 128 + z :: 128 + v :: rest)
  = cons (x * 262144 + y * 4096 + z * 64 + v) <$> decodeUtf8 rest.
Proof.
  intros Hx Hy Hz Hv Hmin Hsc.
  decode_head (128 + y :: 128 + z :: 128 + v :: rest).
  rewrite land_07, !payload_add, !is_continuation_add by lia.
  replace ((240 + x) mod 8) with x
    by (replace (240 + x) with (x + 30 * 8) by lia;
        rewrite Z_mod_plus_full, Z.mod_small; lia).
  rewrite (lor_shiftl z v 6) by (simpl; lia).
  rewrite (lor_shiftl y (z * 2 ^ 6 + v) 12) by (simpl; lia).
  rewrite (lor_shiftl x (y * 2 ^ 12 + (z * 2 ^ 6 + v)) 18) by (simpl; lia).
  change (2 ^ 6) with 64. change (2 ^ 12) with 4096.
  change (2 ^ 18) with 262144.
  replace (x * 262144 + (y * 4096 + (z * 64 + v)))
    with (x * 262144 + y * 4096 + z * 64 + v) by lia.
  rewrite Hsc, (proj2 (Z.leb_le _ _)) by lia. reflexivity.
Qed.

Lemma is_scalar_bounds (c : Z) :
  is_scalar c = true <-> 0 <= c < 0xD800 \/ 0xE000 <= c < 0x110000.
Proof.
  unfold is_scalar. rewrite orb_true_iff, !andb_true_iff.
  rewrite !Z.leb_le, !Z.ltb_lt. reflexivity.
Qed.

(** The bytes of a code point, with the bit operations carried out. *)
Lemma encode_bytes (c : Z) :
  is_scalar c = true ->
  encode_code_point c
  = Some (if c <? 0x80 then [c]
          else if c <? 0x800 then [192 + c / 64; 128 + c mod 64]
          else if c <? 0x10000 then
            [224 + c / 4096; 128 + (c / 64) mod 64; 128 + c mod 64]
          else
            [240 + c / 262144; 128 + (c / 4096) mod 64;
             128 + (c / 64) mod 64; 128 + c mod 64]).
Proof.
  intros Hsc. unfold encode_code_point. rewrite Hsc. cbn [negb].
  apply is_scalar_bounds in Hsc.
  rewrite !continuation_add.
  rewrite !Z.shiftr_div_pow2 by lia.
  change (2 ^ 6) with 64. change (2 ^ 12) with 4096.
  change (2 ^ 18) with 262144.
  destruct (c <? 0x80) eqn:H1; [reflexivity|]. apply Z.ltb_ge in H1.
  destruct (c <? 0x800) eqn:H2.
  { apply Z.ltb_lt in H2. rewrite lead2_add; [reflexivity|].
    split; [apply Z.div_pos; lia | apply Z.div_lt_upper_bound; lia]. }
  apply Z.ltb_ge in H2.
  destruct (c <? 0x10000) eqn:H3.
  { apply Z.ltb_lt in H3. rewrite lead3_add; [reflexivity|].
    split; [apply Z.div_pos; lia | apply Z.div_lt_upper_bound; lia]. }
  apply Z.ltb_ge in H3. rewrite lead4_add; [reflexivity|].
  split; [apply Z.div_pos; lia | apply Z.div_lt_upper_bound; lia].
Qed.

(** Decoding the bytes of one code point gives the code point back and
    leaves the bytes after them to be decoded. *)
Lemma decode_encode_code_point (c : Z) :
  is_scalar c = true ->
  exists bs,
    encode_code_point c = Some bs
    /\ forall rest, decodeUtf8 (bs ++ rest) = cons c <$> decodeUtf8 rest.
Proof.
  intros Hsc. rewrite (encode_bytes c Hsc). eexists. split; [reflexivity|].
  intros rest. pose proof (proj1 (is_scalar_bounds c) Hsc) as Hb.
  destruct (c <? 0x80) eqn:H1.
  { apply Z.ltb_lt in H1. apply decode_1. lia. }
  apply Z.ltb_ge in H1.
  destruct (c <? 0x800) eqn:H2.
  { apply Z.ltb_lt in H2. cbn [app].
    rewrite decode_2.
    - do 2 f_equal. Z.to_euclidean_division_equations. lia.
    - Z.to_euclidean_division_equations. lia.
    - apply Z.mod_pos_bound. lia. }
  apply Z.ltb_ge in H2.
  destruct (c <? 0x10000) eqn:H3.
  { apply Z.ltb_lt in H3. cbn [app].
    assert (Hc : c / 4096 * 4096 + (c / 64) mod 64 * 64 + c mod 64 = c)
      by (Z.to_euclidean_division_equations; lia).
    rewrite decode_3; rewrite ?Hc; try assumption; try lia.
    - reflexivity.
    - Z.to_euclidean_division_equations. lia.
    - apply Z.mod_pos_bound. lia.
    - apply Z.mod_pos_bound. lia. }
  apply Z.ltb_ge in H3. cbn [app].
  assert (Hc : c / 262144 * 262144 + (c / 4096) mod 64 * 4096
               + (c / 64) mod 64 * 64 + c mod 64 = c)
    by (Z.to_euclidean_division_equations; lia).
  rewrite decode_4; rewrite ?Hc; try assumption; try lia.
  - reflexivity.
  - Z.to_euclidean_division_equations. lia.
  - apply Z.mod_pos_bound. lia.
  - apply Z.mod_pos_bound. lia.
  - apply Z.mod_pos_bound. lia.
Qed.

(** *** Sequences *)

Lemma encodeUtf8_total (s : list Z) :
  Forall (fun c => is_scalar c = true) s -> is_Some (encodeUtf8 s).
Proof.
  induction 1 as [|c s Hc _ [r Hr]]; [simpl; eauto|].
  destruct (decode_encode_code_point c Hc) as (bs & Hbs & _).
  cbn [encodeUtf8]. rewrite Hbs, Hr. simpl. eauto.
Qed.

Lemma decode_encode (s u : list Z) :
  Forall (fun c => is_scalar c = true) s ->
  encodeUtf8 s = Some u -> decodeUtf8 u = Some s.
Proof.
  intros Hs. revert u.
  induction Hs as [|c s Hc _ IH]; intros u; cbn [encodeUtf8].
  - intros [= <-]. reflexivity.
  - destruct (decode_encode_code_point c Hc) as (bs & Hbs & Hdec).
    rewrite Hbs. cbn [mbind option_bind].
    destruct (encodeUtf8 s) as [r|]; [|discriminate].
    cbn [mbind option_bind]. intros [= <-].
    rewrite Hdec, (IH r eq_refl). reflexivity.
Qed.

(** *** The wide representation *)

Lemma utf16_decode_units (c : Z) (rest : list Z) :
  is_scalar c = true ->
  utf16_decode (utf16_units c ++ rest) = cons c <$> utf16_decode rest.
Proof.
  intros Hsc. apply is_scalar_bounds in Hsc. unfold utf16_units.
  destruct (c <? 0x10000) eqn:H1.
  - apply Z.ltb_lt in H1. cbn [app utf16_decode].
    unfold is_high_surrogate, is_low_surrogate.
    rewrite (between_false 0xD800 c 0xDC00) by lia.
    rewrite (between_false 0xDC00 c 0xE000) by lia.
    rewrite (between_true 0 c 0x10000) by lia. reflexivity.
  - apply Z.ltb_ge in H1. cbn [app].
    rewrite Z.shiftr_div_pow2 by lia.
    change 0x3FF with (Z.ones 10).
    rewrite (Z.land_ones (c - 0x10000) 10) by lia.
    change (2 ^ 10) with 1024.
    remember (0xDC00 + (c - 0x10000) mod 1024 :: rest) as r eqn:Hr.
    cbn [utf16_decode]. unfold is_high_surrogate.
    rewrite between_true by (Z.to_euclidean_division_equations; lia).
    subst r. cbv beta iota. unfold is_low_surrogate.
    rewrite between_true by (Z.to_euclidean_division_equations; lia).
    rewrite Z.shiftl_mul_pow2 by lia. change (2 ^ 10) with 1024.
    do 2 f_equal. Z.to_euclidean_division_equations. lia.
Qed.

Lemma wide_decode_encode (enc : wide_encoding) (s : list Z) :
  Forall (fun c => is_scalar c = true) s ->
  wide_decode enc (wide_encode enc s) = Some s.
Proof.
  intros Hs. destruct enc; cbn [wide_decode wide_encode].
  - assert (Hall : forallb is_scalar s = true).
    { induction Hs as [|c s Hc _ IH]; [reflexivity|].
      cbn [forallb]. rewrite Hc, IH. reflexivity. }
    rewrite Hall. reflexivity.
  - induction Hs as [|c s Hc _ IH]; [reflexivity|].
    cbn [flat_map]. rewrite utf16_decode_units by assumption.
    rewrite IH. reflexivity.
Qed.

End Utf8Facts.

(** C1.  For every sequence [s] of code points (any mix of planes, the
    surrogate range excluded), in either wide representation: [s] has a
    utf-8 encoding [u], decoding [u] gives [s] back, the string built
    from [u] holds exactly the code points [s], and converting that
    string to utf-8 gives [u] again. *)
Theorem utf8_round_trip (enc : Utf8.wide_encoding) (s : list Z) :
  Forall (fun c => Utf8.is_scalar c = true) s ->
  exists u w,
    Utf8.encodeUtf8 s = Some u
    /\ Utf8.decodeUtf8 u = Some s
    /\ Str.string_of_utf8 enc u = Some w
    /\ Utf8.wide_decode enc w = Some s
    /\ Str.string_to_utf8 enc w = Some u.
Proof.
  intros Hs. destruct (encodeUtf8_total s Hs) as [u Hu].
  pose proof (decode_encode s u Hs Hu) as Hd.
  exists u, (Utf8.wide_encode enc s).
  unfold Str.string_of_utf8, Str.string_to_utf8.
  rewrite Hd, (wide_decode_encode enc s Hs). cbn [mbind option_bind].
  auto.
Qed.

Lemma utf8_round_trip_witness :
  Forall (fun c => Utf8.is_scalar c = true) [99; 233; 8364; 128512]%Z
  /\ exists u w,
       Utf8.encodeUtf8 [99; 233; 8364; 128512]%Z = Some u
       /\ Utf8.decodeUtf8 u = Some [99; 233; 8364; 128512]%Z
       /\ Str.string_of_utf8 Utf8.UTF16 u = Some w
       /\ Utf8.wide_decode Utf8.UTF16 w = Some [99; 233; 8364; 128512]%Z
       /\ Str.string_to_utf8 Utf8.UTF16 w = Some u.
Proof.
  assert (H : Forall (fun c => Utf8.is_scalar c = true)
                [99; 233; 8364; 128512]%Z)
    by (repeat constructor).
  split; [exact H | exact (utf8_round_trip Utf8.UTF16 _ H)].
Defined.

(** The codec on known texts: "é", "€" and a code point of plane 1, and
    three byte sequences the strict decoder reports. *)
Example encodeUtf8_known :
  Utf8.encodeUtf8 [233; 8364; 128512]%Z
  = Some [195; 169; 226; 130; 172; 240; 159; 152; 128]%Z.
Proof. reflexivity. Qed.

Example decodeUtf8_overlong : Utf8.decodeUtf8 [192; 128]%Z = None.
Proof. reflexivity. Qed.

Example decodeUtf8_surrogate : Utf8.decodeUtf8 [237; 160; 128]%Z = None.
Proof. reflexivity. Qed.

Example decodeUtf8_truncated : Utf8.decodeUtf8 [226; 130]%Z = None.
Proof. reflexivity. Qed.

Example utf16_units_plane1 :
  Utf8.wide_encode Utf8.UTF16 [128512]%Z = [55357; 56832]%Z.
Proof. reflexivity. Qed.

(** ** Printing a [string] *)

(** When the conversion throws, nothing is inserted and the exception
    leaves [operator<<]. *)
Lemma operator_shl_throws (to_std_string : Str.string -> option (list Z))
    (out : Str.ostream) (str : Str.string) :
  to_std_string str = None -> Str.operator_shl to_std_string out str = None.
Proof. intros H. unfold Str.operator_shl. rewrite H. reflexivity. Qed.




(** ** Further properties of [GUID::set] *)

Section GuidSetFacts.

Import GUID.

Lemma char_at_before_terminator (t1 t2 : list Z) (i : nat) :
  i <= length t1 -> char_at (t1 ++ 0%Z :: t2) i = char_at t1 i.
Proof.
  intros Hi. unfold char_at.
  destruct (decide (i < length t1)) as [Hlt|Hge].
  - rewrite lookup_app_l by lia. reflexivity.
  - rewrite lookup_app_r by lia.
    replace (i - length t1) with 0 by lia.
    rewrite (lookup_ge_None_2 t1 i) by lia. reflexivity.
Qed.

Lemma set_loop_terminator (fuel : nat) (t1 t2 : list Z) (i : nat)
    (m : list Z) :
  i <= length t1 ->
  set_loop fuel (t1 ++ 0%Z :: t2) i m = set_loop fuel t1 i m.
Proof.
  revert i m. induction fuel as [|fuel IH]; intros i m Hi; [reflexivity|].
  cbn [set_loop]. rewrite char_at_before_terminator by assumption.
  destruct (negb (char_at t1 i =? 0)%Z && (i <? sizeof_m_data)) eqn:Hg;
    [|reflexivity].
  apply IH. apply andb_true_iff in Hg as [Hnz _].
  destruct (decide (i < length t1)) as [Hlt|Hge]; [lia|].
  rewrite char_at_end in Hnz by lia. discriminate.
Qed.

Lemma set_before_terminator (t1 t2 : list Z) (g : GUID) :
  set (t1 ++ 0%Z :: t2) g = set t1 g.
Proof. unfold set. rewrite set_loop_terminator by lia. reflexivity. Qed.

(** A sequence of chars is a text, or a text followed by a terminator
    and more chars. *)
Lemma text_or_terminated (data : list Z) :
  c_text data
  \/ exists t1 t2, c_text t1 /\ data = t1 ++ 0%Z :: t2.
Proof.
  induction data as [|c d IH].
  - left. constructor.
  - destruct (decide (c = 0%Z)) as [->|Hc].
    + right. exists [], d. split; [constructor|reflexivity].
    + destruct IH as [Hd|(t1 & t2 & Ht1 & ->)].
      * left. constructor; assumption.
      * right. exists (c :: t1), t2. split; [constructor; assumption|].
        reflexivity.
Qed.

End GuidSetFacts.

(** X1.  [set] reads its argument as a C string: the chars after the
    first terminator, as a [std::string] can hold them, are ignored. *)
Theorem set_stops_at_terminator (t1 t2 : list Z) (g : GUID.GUID) :
  GUID.set (t1 ++ 0%Z :: t2) g = GUID.set t1 g.
Proof.
  unfold GUID.set. f_equal.
  apply set_loop_terminator. lia.
Qed.

Section GuidTraceFacts.

Import GUID.

Lemma set_loop_stores (fuel : nat) (data : list Z) (i : nat) (m : list Z) :
  set_loop fuel data i m
  = (fun rw => stores data rw.2 m) <$> set_loop_trace fuel data i.
Proof.
  revert i m. induction fuel as [|fuel IH]; intros i m; [reflexivity|].
  cbn [set_loop set_loop_trace].
  destruct (negb (char_at data i =? 0)%Z && (i <? sizeof_m_data));
    [|reflexivity].
  rewrite IH. destruct (set_loop_trace fuel data (S i)) as [[r w]|];
    reflexivity.
Qed.

Lemma set_loop_trace_bounds (fuel : nat) (data : list Z) (i : nat)
    (reads writes : list nat) :
  i <= length data ->
  set_loop_trace fuel data i = Some (reads, writes) ->
  Forall (fun j => j <= length data) reads
  /\ Forall (fun j => j < sizeof_m_data) writes.
Proof.
  revert i reads writes.
  induction fuel as [|fuel IH]; intros i reads writes Hi; [discriminate|].
  cbn [set_loop_trace].
  destruct (negb (char_at data i =? 0)%Z && (i <? sizeof_m_data)) eqn:Hg.
  - apply andb_true_iff in Hg as [Hnz Hlt]. apply Nat.ltb_lt in Hlt.
    assert (Hin : i < length data).
    { destruct (decide (i < length data)) as [H|H]; [exact H|].
      rewrite char_at_end in Hnz by lia. discriminate. }
    destruct (set_loop_trace fuel data (S i)) as [[r w]|] eqn:Hrec;
      [|discriminate].
    cbn [mbind option_bind]. intros [= <- <-].
    destruct (IH (S i) r w ltac:(lia) Hrec) as [Hr Hw].
    split; constructor; (lia || assumption).
  - intros [= <- <-]. split; repeat constructor. exact Hi.
Qed.

End GuidTraceFacts.

(** X2.  For a pointer to a terminated C string [data] of any length,
    [set] returns; it reads [data] at no index past the terminator
    (index [length data]), it stores into slots below 32 only, the
    value it leaves is the array after exactly these stores, and the
    array keeps its size. *)
Theorem set_stays_in_bounds (data : list Z) (g : GUID.GUID) :
  exists g' reads writes,
    GUID.set data g = Some g'
    /\ GUID.set_loop_trace GUID.set_fuel data 0 = Some (reads, writes)
    /\ GUID.m_data g' = GUID.stores data writes (GUID.m_data g)
    /\ Forall (fun j => j <= length data) reads
    /\ Forall (fun j => j < 32) writes
    /\ length (GUID.m_data g') = length (GUID.m_data g).
Proof.
  destruct (set_total data g) as [g' Hg'].
  pose proof (set_length data g g' Hg') as Hlen.
  unfold GUID.set in Hg'. rewrite set_loop_stores in Hg'.
  destruct (GUID.set_loop_trace GUID.set_fuel data 0) as [[r w]|] eqn:Htr;
    [|discriminate].
  cbn in Hg'. injection Hg' as <-.
  destruct (set_loop_trace_bounds GUID.set_fuel data 0 r w
              (Nat.le_0_l _) Htr) as [Hr Hw].
  exists (GUID.mkGUID (GUID.stores data w (GUID.m_data g))), r, w.
  split.
  { unfold GUID.set. rewrite set_loop_stores, Htr. reflexivity. }
  repeat split; assumption.
Qed.

(** X3.  Setting the same chars twice is setting them once. *)
Theorem set_idempotent (data : list Z) (g g' : GUID.GUID) :
  length (GUID.m_data g) = 32 ->
  GUID.set data g = Some g' ->
  GUID.set data g' = Some g'.
Proof.
  intros Hlen.
  assert (Htext : forall t, GUID.c_text t ->
            GUID.set t g = Some g' -> GUID.set t g' = Some g').
  { intros t Ht Hset.
    pose proof (set_length t g g' Hset) as Hlen'.
    rewrite (set_text t g Ht Hlen) in Hset. injection Hset as <-.
    rewrite set_text by (assumption || (rewrite Hlen'; exact Hlen)).
    cbn [GUID.m_data]. do 3 f_equal.
    set (k := length t `min` GUID.sizeof_m_data).
    assert (Hk : length (take k t) = k) by (rewrite length_take; lia).
    rewrite <- Hk at 1. apply drop_app_length. }
  destruct (text_or_terminated data) as [Ht|(t1 & t2 & Ht1 & ->)].
  - apply Htext, Ht.
  - rewrite !set_before_terminator. apply Htext, Ht1.
Qed.

Lemma set_idempotent_witness :
  length (GUID.m_data (GUID.mkGUID (replicate 32 170%Z))) = 32
  /\ GUID.set [97; 0; 98]%Z (GUID.mkGUID (replicate 32 170%Z))
     = Some (GUID.mkGUID (97%Z :: replicate 31 170%Z))
  /\ GUID.set [97; 0; 98]%Z (GUID.mkGUID (97%Z :: replicate 31 170%Z))
     = Some (GUID.mkGUID (97%Z :: replicate 31 170%Z)).
Proof.
  assert (H1 : length (GUID.m_data (GUID.mkGUID (replicate 32 170%Z))) = 32)
    by reflexivity.
  assert (H2 : GUID.set [97; 0; 98]%Z (GUID.mkGUID (replicate 32 170%Z))
               = Some (GUID.mkGUID (97%Z :: replicate 31 170%Z)))
    by reflexivity.
  exact (conj H1 (conj H2 (set_idempotent _ _ _ H1 H2))).
Defined.

(** X4.  Assigning a text to a [GUID] that was built from a longer one
    replaces the head of the former text only: the value reads as the
    new text, then the tail of the former text, then what the storage
    held. *)
Theorem GUID_assign_shorter_keeps_tail (storage t1 t2 : list Z) :
  GUID.c_text t1 -> GUID.c_text t2 ->
  length storage = 32 ->
  length t2 <= length t1 -> length t1 <= 32 ->
  GUID.GUID_of_text storage t1 ≫= (fun g => GUID.GUID_assign g t2)
  = Some (GUID.mkGUID
            (t2 ++ drop (length t2) t1 ++ drop (length t1) storage)).
Proof.
  intros Ht1 Ht2 Hs H21 H1. unfold GUID.GUID_of_text, GUID.GUID_assign.
  rewrite (set_text t1 (GUID.mkGUID storage) Ht1 Hs).
  cbn [mbind option_bind GUID.m_data].
  unfold GUID.sizeof_m_data in *.
  rewrite (Nat.min_l (length t1) 32) by lia. rewrite firstn_all.
  rewrite set_text; [|assumption|].
  - cbn [GUID.m_data]. unfold GUID.sizeof_m_data.
    rewrite (Nat.min_l (length t2) 32) by lia. rewrite firstn_all.
    rewrite drop_app_le by lia. reflexivity.
  - cbn [GUID.m_data]. unfold GUID.sizeof_m_data.
    rewrite length_app, length_drop. lia.
Qed.

Lemma GUID_assign_shorter_keeps_tail_witness :
  GUID.c_text [119; 120; 121; 122]%Z /\ GUID.c_text [97; 98]%Z
  /\ length (replicate 32 0%Z) = 32
  /\ length [97; 98]%Z <= length [119; 120; 121; 122]%Z
  /\ length [119; 120; 121; 122]%Z <= 32
  /\ GUID.GUID_of_text (replicate 32 0%Z) [119; 120; 121; 122]%Z
       ≫= (fun g => GUID.GUID_assign g [97; 98]%Z)
     = Some (GUID.mkGUID
               ([97; 98]%Z ++ drop (length [97; 98]%Z) [119; 120; 121; 122]%Z
                ++ drop (length [119; 120; 121; 122]%Z) (replicate 32 0%Z))).
Proof.
  assert (H1 : GUID.c_text [119; 120; 121; 122]%Z)
    by (unfold GUID.c_text; repeat constructor; discriminate).
  assert (H2 : GUID.c_text [97; 98]%Z)
    by (unfold GUID.c_text; repeat constructor; discriminate).
  assert (H3 : length (replicate 32 0%Z) = 32) by reflexivity.
  assert (H4 : length [97; 98]%Z <= length [119; 120; 121; 122]%Z)
    by (simpl; lia).
  assert (H5 : length [119; 120; 121; 122]%Z <= 32) by (simpl; lia).
  exact (conj H1 (conj H2 (conj H3 (conj H4 (conj H5
           (GUID_assign_shorter_keeps_tail _ _ _ H1 H2 H3 H4 H5)))))).
Defined.

(** X5.  A text of 32 chars or more determines the value alone: whatever
    the storage held, the [GUID] converts to the first 32 chars of the
    text, and none of its 32 chars is a terminator. *)
Theorem GUID_of_long_text_fills (s1 s2 t : list Z) :
  GUID.c_text t -> 32 <= length t ->
  length s1 = 32 -> length s2 = 32 ->
  exists g,
    GUID.GUID_of_text s1 t = Some g
    /\ GUID.GUID_of_text s2 t = Some g
    /\ GUID.GUID_to_string g = take 32 t
    /\ Forall (fun c => c <> 0%Z) (GUID.GUID_to_string g).
Proof.
  intros Ht Hlen H1 H2.
  assert (Hfill : forall s, length s = 32 ->
            GUID.GUID_of_text s t = Some (GUID.mkGUID (take 32 t))).
  { intros s Hs. unfold GUID.GUID_of_text.
    rewrite (set_text t (GUID.mkGUID s) Ht Hs). cbn [GUID.m_data].
    unfold GUID.sizeof_m_data. rewrite (Nat.min_r (length t) 32) by lia.
    rewrite <- Hs at 2. rewrite drop_all, app_nil_r. reflexivity. }
  exists (GUID.mkGUID (take 32 t)).
  split; [apply Hfill, H1|]. split; [apply Hfill, H2|].
  unfold GUID.GUID_to_string, GUID.sizeof_m_data. cbn [GUID.m_data].
  rewrite take_take, Nat.min_id. split; [reflexivity|].
  apply Forall_take. exact Ht.
Qed.

Lemma GUID_of_long_text_fills_witness :
  GUID.c_text (replicate 40 65%Z) /\ 32 <= length (replicate 40 65%Z)
  /\ length (replicate 32 0%Z) = 32 /\ length (replicate 32 170%Z) = 32
  /\ exists g,
       GUID.GUID_of_text (replicate 32 0%Z) (replicate 40 65%Z) = Some g
       /\ GUID.GUID_of_text (replicate 32 170%Z) (replicate 40 65%Z) = Some g
       /\ GUID.GUID_to_string g = take 32 (replicate 40 65%Z)
       /\ Forall (fun c => c <> 0%Z) (GUID.GUID_to_string g).
Proof.
  assert (H1 : GUID.c_text (replicate 40 65%Z))
    by (unfold GUID.c_text; apply Forall_replicate; discriminate).
  assert (H2 : 32 <= length (replicate 40 65%Z)) by (simpl; lia).
  assert (H3 : length (replicate 32 0%Z) = 32) by reflexivity.
  assert (H4 : length (replicate 32 170%Z) = 32) by reflexivity.
  exact (conj H1 (conj H2 (conj H3 (conj H4
           (GUID_of_long_text_fills _ _ _ H1 H2 H3 H4))))).
Defined.



(** ** Further properties of [bytes] *)

(** X7.  A view is the pair of pointers [begin()] and [end()]: building a
    view from the two pointers of a view gives the same view. *)
Theorem bytes_of_range_begin_end (b : Bytes.bytes) :
  Bytes.well_typed b ->
  Bytes.bytes_of_range (Bytes.begin b) (Bytes.end_ b) = b.
Proof.
  intros [_ Hs]. destruct b as [f s]. cbn [Bytes.second] in Hs.
  unfold Bytes.bytes_of_range, Bytes.begin, Bytes.end_.
  cbn [Bytes.first Bytes.second].
  rewrite ptr_diff_add, to_size_t_in_range by assumption. reflexivity.
Qed.

Lemma bytes_of_range_begin_end_witness :
  Bytes.well_typed (Bytes.bytes_of_len 4096 12)
  /\ Bytes.bytes_of_range (Bytes.begin (Bytes.bytes_of_len 4096 12))
       (Bytes.end_ (Bytes.bytes_of_len 4096 12))
     = Bytes.bytes_of_len 4096 12.
Proof.
  assert (H : Bytes.well_typed (Bytes.bytes_of_len 4096 12))
    by (split; in_range_literal).
  exact (conj H (bytes_of_range_begin_end _ H)).
Defined.

(** X8.  The constructor from two pointers does not test their order:
    with [end_] below [beg_] the length is the difference wrapped into
    [size_t], [2^64 - (beg_ - end_)]; the region described runs past the
    top of the address space, and [end()] still returns [end_]. *)
Theorem bytes_of_range_reversed (beg_ end_ : Z) :
  Bytes.in_range beg_ -> Bytes.in_range end_ -> (end_ < beg_)%Z ->
  Bytes.length (Bytes.bytes_of_range beg_ end_)
  = (2 ^ 64 - (beg_ - end_))%Z
  /\ (2 ^ 64 <= beg_ + Bytes.length (Bytes.bytes_of_range beg_ end_))%Z
  /\ Bytes.end_ (Bytes.bytes_of_range beg_ end_) = end_.
Proof.
  intros Hb He Hlt.
  assert (H : Bytes.length (Bytes.bytes_of_range beg_ end_)
              = (2 ^ 64 - (beg_ - end_))%Z).
  { unfold Bytes.bytes_of_range, Bytes.length, Bytes.ptr_diff.
    cbn [Bytes.second]. rewrite to_size_t_ptrdiff.
    unfold Bytes.to_size_t, Bytes.in_range, Bytes.size_bits in *.
    replace (end_ - beg_)%Z
      with (2 ^ 64 - (beg_ - end_) + (-1) * 2 ^ 64)%Z by lia.
    rewrite Z_mod_plus_full. apply Z.mod_small. lia. }
  split; [exact H|]. split.
  - rewrite H. unfold Bytes.in_range, Bytes.size_bits in *. lia.
  - unfold Bytes.end_, Bytes.ptr_add.
    fold (Bytes.length (Bytes.bytes_of_range beg_ end_)).
    rewrite H. unfold Bytes.bytes_of_range. cbn [Bytes.first].
    unfold Bytes.to_size_t, Bytes.in_range, Bytes.size_bits in *.
    replace (beg_ + (2 ^ 64 - (beg_ - end_)))%Z
      with (end_ + 1 * 2 ^ 64)%Z by lia.
    rewrite Z_mod_plus_full. apply Z.mod_small. lia.
Qed.

Lemma bytes_of_range_reversed_witness :
  Bytes.in_range 4108 /\ Bytes.in_range 4096 /\ (4096 < 4108)%Z
  /\ Bytes.length (Bytes.bytes_of_range 4108 4096)
     = (2 ^ 64 - (4108 - 4096))%Z.
Proof.
  assert (H1 : Bytes.in_range 4108) by in_range_literal.
  assert (H2 : Bytes.in_range 4096) by in_range_literal.
  assert (H3 : (4096 < 4108)%Z) by lia.
  exact (conj H1 (conj H2 (conj H3
           (proj1 (bytes_of_range_reversed 4108 4096 H1 H2 H3))))).
Defined.

(** X9.  The view of a C string that lies inside the address space ends
    at the terminator and holds none: [end()] is the address of the
    terminator, not below [begin()], and every byte from [begin()] up to
    [end()] is not zero. *)
Theorem bytes_of_str_ends_at_terminator (fuel : nat) (mem : Bytes.memory)
    (str : Z) (t : list Z) :
  str <> Bytes.NULL ->
  Bytes.in_range str ->
  (str + Z.of_nat (length t) < 2 ^ 64)%Z ->
  Bytes.holds_text mem str t ->
  length t < fuel ->
  exists b,
    Bytes.bytes_of_str fuel mem str = Some b
    /\ (Bytes.begin b <= Bytes.end_ b)%Z
    /\ mem (Bytes.end_ b) = 0%Z
    /\ (forall a, (Bytes.begin b <= a < Bytes.end_ b)%Z -> mem a <> 0%Z).
Proof.
  intros Hstr Hrange Hfit Htext Hfuel.
  exists (Bytes.pair str (Z.of_nat (length t))).
  assert (Hend : Bytes.end_ (Bytes.pair str (Z.of_nat (length t)))
                 = (str + Z.of_nat (length t))%Z).
  { unfold Bytes.end_, Bytes.ptr_add. cbn [Bytes.first Bytes.second].
    apply to_size_t_in_range.
    unfold Bytes.in_range, Bytes.size_bits in *. lia. }
  rewrite Hend. unfold Bytes.begin. cbn [Bytes.first].
  split; [|split; [lia|split]].
  - unfold Bytes.bytes_of_str.
    assert (Hnull : (Bytes.NULL =? str)%Z = false)
      by (apply Z.eqb_neq; congruence).
    rewrite Hnull. cbn [negb]. unfold Bytes.strlen.
    pose proof (strlen_from_text fuel mem str t 0 Htext) as Hlen.
    change (Z.of_nat 0) with 0%Z in Hlen.
    rewrite Hlen by lia. reflexivity.
  - apply Htext.
  - intros a Ha. destruct Htext as [Hchars _].
    destruct (lookup_lt_is_Some_2 t (Z.to_nat (a - str)) ltac:(lia))
      as [c Hc].
    destruct (Hchars _ c Hc) as [Hmem Hnz].
    replace (str + Z.of_nat (Z.to_nat (a - str)))%Z with a in Hmem by lia.
    rewrite Hmem. exact Hnz.
Qed.

Lemma bytes_of_str_ends_at_terminator_witness :
  4096%Z <> Bytes.NULL /\ Bytes.in_range 4096
  /\ (4096 + Z.of_nat (length [97; 98; 99]%Z) < 2 ^ 64)%Z
  /\ Bytes.holds_text (Bytes.memory_of 4096 [97; 98; 99]%Z) 4096
       [97; 98; 99]%Z
  /\ length [97; 98; 99]%Z < 4
  /\ exists b,
       Bytes.bytes_of_str 4 (Bytes.memory_of 4096 [97; 98; 99]%Z) 4096
       = Some b
       /\ (Bytes.begin b <= Bytes.end_ b)%Z
       /\ Bytes.memory_of 4096 [97; 98; 99]%Z (Bytes.end_ b) = 0%Z
       /\ (forall a, (Bytes.begin b <= a < Bytes.end_ b)%Z ->
             Bytes.memory_of 4096 [97; 98; 99]%Z a <> 0%Z).
Proof.
  assert (H1 : 4096%Z <> Bytes.NULL) by discriminate.
  assert (H2 : Bytes.in_range 4096) by in_range_literal.
  assert (H3 : (4096 + Z.of_nat (length [97; 98; 99]%Z) < 2 ^ 64)%Z)
    by (simpl; lia).
  assert (H4 : Bytes.holds_text (Bytes.memory_of 4096 [97; 98; 99]%Z) 4096
                 [97; 98; 99]%Z).
  { apply holds_text_memory_of. repeat constructor; discriminate. }
  assert (H5 : length [97; 98; 99]%Z < 4) by (simpl; lia).
  exact (conj H1 (conj H2 (conj H3 (conj H4 (conj H5
           (bytes_of_str_ends_at_terminator 4 _ 4096 _ H1 H2 H3 H4 H5)))))).
Defined.

(** ** [THROW] at an API boundary *)


(** ** Composed uses *)

(** X11.  A default-constructed [GUID] that is then assigned a text of
    fewer than 32 chars converts to the text followed by zero chars up
    to 32: the padding comes from the default constructor. *)
Theorem GUID_default_assign_padded (t : list Z) :
  GUID.c_text t -> length t < 32 ->
  GUID.GUID_to_string <$> GUID.GUID_assign GUID.GUID_default t
  = Some (t ++ replicate (32 - length t) 0%Z).
Proof.
  intros Ht Hlen. unfold GUID.GUID_assign.
  rewrite set_text; [|assumption|reflexivity].
  cbn [fmap option_fmap option_map]. unfold GUID.GUID_to_string.
  cbn [GUID.m_data]. unfold GUID.GUID_default, GUID.sizeof_m_data.
  cbn [GUID.m_data]. rewrite (Nat.min_l (length t) 32) by lia.
  rewrite firstn_all, drop_replicate.
  rewrite take_ge; [reflexivity|].
  rewrite length_app, length_replicate. lia.
Qed.

Lemma GUID_default_assign_padded_witness :
  GUID.c_text [97; 98; 99]%Z /\ length [97; 98; 99]%Z < 32
  /\ GUID.GUID_to_string <$> GUID.GUID_assign GUID.GUID_default [97; 98; 99]%Z
     = Some ([97; 98; 99]%Z ++ replicate (32 - length [97; 98; 99]%Z) 0%Z).
Proof.
  assert (H1 : GUID.c_text [97; 98; 99]%Z)
    by (unfold GUID.c_text; repeat constructor; discriminate).
  assert (H2 : length [97; 98; 99]%Z < 32) by (simpl; lia).
  exact (conj H1 (conj H2 (GUID_default_assign_padded _ H1 H2))).
Defined.


